(** * GM_bot: history windowing and reply rendering of [main.py]

    A shallow embedding of the two pure pieces of [main.py]:
    - [get_chat_history] (lines 62-78), the token-budget window over the
      stored chat history;
    - the reply formatting inside [process_content] (lines 190-265), which
      escapes Markdown outside code, and the bookkeeping around it
      (lines 136-277) that stores the turns.

    A Python [str] is a sequence of Unicode code points: a character is a
    number [N], a string is a list of them.  Python integers are [Z],
    indices and lengths are [nat]. *)

From Stdlib Require Import List NArith ZArith Bool Lia Ascii.
From Stdlib Require String.
Import String.StringSyntax ListNotations.
Delimit Scope string_scope with string.

Set Implicit Arguments.

(** ** Python strings *)

Module Py.

Definition char := N.
Definition str := list char.

(** A literal of the source, written as a Rocq string (ASCII only). *)
Definition lit (s : String.string) : str :=
  map N_of_ascii (String.list_ascii_of_string s).

Definition backtick : char := 96%N.
Definition underscore : char := 95%N.
Definition lbracket : char := 91%N.
Definition backslash : char := 92%N.
Definition newline : char := 10%N.

Definition str_eqb (a b : str) : bool :=
  if list_eq_dec N.eq_dec a b then true else false.

(** [s.startswith(p)] *)
Fixpoint startswith (s p : str) {struct p} : bool :=
  match p, s with
  | [], _ => true
  | _ :: _, [] => false
  | x :: p', y :: s' => N.eqb x y && startswith s' p'
  end.

(** [sub in s] *)
Fixpoint contains (s sub : str) : bool :=
  startswith s sub ||
  match s with
  | [] => false
  | _ :: s' => contains s' sub
  end.

(** Index of the first [c] in [s], if any. *)
Fixpoint index_of (c : char) (s : str) : option nat :=
  match s with
  | [] => None
  | x :: s' =>
      if N.eqb x c then Some 0
      else match index_of c s' with
           | Some k => Some (S k)
           | None => None
           end
  end.

(** [s.find(c, start)]; Python's -1 is [None]. *)
Definition find (s : str) (c : char) (start : nat) : option nat :=
  match index_of c (skipn start s) with
  | Some k => Some (start + k)
  | None => None
  end.

(** [s[i]] for an index in range. *)
Definition at_ (s : str) (i : nat) : char := nth i s 0%N.

(** [s[i:j]] *)
Definition slice (s : str) (i j : nat) : str := firstn (j - i) (skipn i s).

(** [s.split(sep)] for a one-character separator: never empty. *)
Fixpoint split_on (sep : char) (s : str) : list str :=
  match s with
  | [] => [[]]
  | c :: s' =>
      if N.eqb c sep then [] :: split_on sep s'
      else match split_on sep s' with
           | l :: ls => (c :: l) :: ls
           | [] => [[c]]
           end
  end.

(** [sep.join(parts)] for a one-character separator. *)
Fixpoint join (sep : char) (parts : list str) : str :=
  match parts with
  | [] => []
  | [p] => p
  | p :: ps => p ++ sep :: join sep ps
  end.

(** [c.isspace()]: the code points whose Unicode category is Zs or whose
    bidirectional class is WS, B or S. *)
Definition isspace (c : char) : bool :=
  ((9 <=? c) && (c <=? 13) || (28 <=? c) && (c <=? 32)
   || (c =? 133) || (c =? 160) || (c =? 5760)
   || (8192 <=? c) && (c <=? 8202)
   || (c =? 8232) || (c =? 8233) || (c =? 8239) || (c =? 8287)
   || (c =? 12288))%N.

(** [s.split()]: the maximal runs of characters that are not white space.
    [cur] is the run being read. *)
Fixpoint split_ws_from (cur : str) (s : str) : list str :=
  match s with
  | [] => match cur with [] => [] | _ => [cur] end
  | c :: s' =>
      if isspace c then
        match cur with
        | [] => split_ws_from [] s'
        | _ => cur :: split_ws_from [] s'
        end
      else split_ws_from (cur ++ [c]) s'
  end.

Definition split_ws (s : str) : list str := split_ws_from [] s.

End Py.

Import Py.

Notation "'py' s" := (lit s%string) (at level 9, s at level 0, only parsing).

(** ** The reply renderer (lines 190-265) *)

Definition fence : str := py"```".

(** The two [while] loops (lines 213-234 and 244-264) are the same text but
    for what an opening backtick with no closing one appends: the line loop
    appends the character itself (line 224), the whole-text loop appends an
    escaped backtick (line 254).  [lone] is that one difference. *)
Section Scan.

Variable lone : char -> str.

(** One [while] loop: [j] is the index, [out] the string built so far.
    Every iteration moves [j] forward, so [length text] iterations are
    enough ([scan_loop_fuel] below). *)
Fixpoint scan_loop (fuel : nat) (text : str) (j : nat) (out : str) : str :=
  match fuel with
  | O => out
  | S fuel' =>
      if j <? length text then
        if (j <? length text - 1)
           && N.eqb (at_ text j) backtick
           && negb (N.eqb (at_ text (j + 1)) backtick)
        then
          match find text backtick (j + 1) with
          | Some backtick_end =>
              scan_loop fuel' text (backtick_end + 1)
                (out ++ slice text j (backtick_end + 1))
          | None =>
              scan_loop fuel' text (j + 1) (out ++ lone (at_ text j))
          end
        else if N.eqb (at_ text j) underscore then
          scan_loop fuel' text (j + 1) (out ++ py"\_")
        else if N.eqb (at_ text j) lbracket then
          scan_loop fuel' text (j + 1) (out ++ py"\[")
        else
          scan_loop fuel' text (j + 1) (out ++ [at_ text j])
      else out
  end.

Definition scan (text : str) : str := scan_loop (length text) text 0 [].

End Scan.

(** Lines 211-236: the loop over one prose line of a reply with fences. *)
Definition escape_line (line : str) : str := scan (fun c => [c]) line.

(** Lines 242-264: the loop over a whole reply without fences. *)
Definition escape_text (full_response : str) : str :=
  scan (fun _ => py"\`") full_response.

(** Lines 201-236: one iteration of the [for] loop over the lines; the
    result is the new [in_code_block] and the new [lines[i]]. *)
Definition format_line (in_code_block : bool) (line : str) : bool * str :=
  if startswith line fence then
    let in_code_block := negb in_code_block in
    if str_eqb line fence && negb in_code_block then
      (in_code_block, py"```")
    else if str_eqb line fence && in_code_block then
      (in_code_block, py"```python")
    else (in_code_block, line)
  else if negb in_code_block then (in_code_block, escape_line line)
  else (in_code_block, line).

(** Lines 199-236: the [for] loop. *)
Fixpoint format_lines (in_code_block : bool) (lines : list str) : list str :=
  match lines with
  | [] => []
  | line :: rest =>
      let (in_code_block', line') := format_line in_code_block line in
      line' :: format_lines in_code_block' rest
  end.

(** Which of the two algorithms line 193 chooses. *)
Inductive Branch := BranchA | BranchB.

Definition branch_of (raw : str) : Branch :=
  if contains raw fence then BranchA else BranchB.

(** What the renderer hands on: [formatted_response] goes to the chat,
    [original_response] to the database. *)
Record Rendered := { display : str; stored : str }.

Definition render (full_response : str) : Rendered :=
  match branch_of full_response with
  | BranchA =>
      let original_response := full_response in
      let lines := split_on newline full_response in
      {| display := join newline (format_lines false lines);
         stored := original_response |}
  | BranchB =>
      let formatted_response := escape_text full_response in
      let original_response := full_response in
      {| display := formatted_response; stored := original_response |}
  end.

(** ** The stored history (lines 36-85) *)

(** A row of table [chat_history]; [row_type] is NULL ([None]) only for a
    row written without the column. *)
Record Row := {
  row_chat : Z;
  row_role : str;
  row_content : str;
  row_type : option str
}.

(** The table, in [rowid] order: oldest first. *)
Definition Database := list Row.

(** Lines 54-59 *)
Definition save_message (db : Database) (chat_id : Z) (role content : str)
    (msg_type : str) : Database :=
  db ++ [{| row_chat := chat_id; row_role := role; row_content := content;
            row_type := Some msg_type |}].

(** Lines 81-85 *)
Definition clear_chat_history (db : Database) (chat_id : Z) : Database :=
  filter (fun r => negb (row_chat r =? chat_id)%Z) db.

(** One turn: a fetched row [(role, content, msg_type)], and also the entry
    [{"role": .., "content": .., "type": ..}] built from it. *)
Record Turn := { role : str; content : str; type : str }.

Definition turn_of_row (r : Row) : Turn :=
  {| role := row_role r; content := row_content r;
     type := match row_type r with Some t => t | None => py"text" end |}.

(** The turns of a chat in the order they were written. *)
Definition chronological (db : Database) (chat_id : Z) : list Turn :=
  map turn_of_row (filter (fun r => (row_chat r =? chat_id)%Z) db).

(** Lines 64-67: the SELECT, newest row first. *)
Definition fetchall (db : Database) (chat_id : Z) : list Turn :=
  rev (chronological db chat_id).

(** Lines 72-73: [len(f"{role}: {content} [{msg_type}]".split())] *)
Definition cost (t : Turn) : Z :=
  let text := role t ++ py": " ++ content t ++ py" [" ++ type t ++ py"]" in
  Z.of_nat (length (split_ws text)).

(** Lines 71-77: the [for] loop, [break] included. *)
Fixpoint history_loop (rows : list Turn) (max_tokens token_count : Z)
    (history : list Turn) : list Turn :=
  match rows with
  | [] => history
  | row :: rest =>
      let tokens := cost row in
      if (token_count + tokens >? max_tokens)%Z then history
      else history_loop rest max_tokens (token_count + tokens)%Z
             (history ++ [row])
  end.

(** Lines 69-78: the window over rows fetched newest first. *)
Definition window (rows : list Turn) (max_tokens : Z) : list Turn :=
  rev (history_loop rows max_tokens 0%Z []).

(** Lines 62-78 *)
Definition get_chat_history (db : Database) (chat_id : Z) (max_tokens : Z)
  : list Turn :=
  window (fetchall db chat_id) max_tokens.

Definition total_cost (turns : list Turn) : Z :=
  fold_right (fun t acc => (cost t + acc)%Z) 0%Z turns.

(** ** Handling one message (lines 136-277) *)

Inductive Part :=
| Text (text : str)
| FileData (mime_type : str) (data : list N).

Record Content := { content_role : str; parts : list Part }.

(** What the handler reads of the incoming message: the chat, the text,
    and the bytes of the downloaded photo or audio. *)
Record Message := { msg_chat : Z; msg_text : str; msg_file : list N }.

Section Handler.

(** The model call of line 185: [None] when it raises. *)
Variable generate_content : list Content -> option str.
(** The transport call of line 267: [false] when it raises. *)
Variable edit_message_text : str -> bool.

(** Lines 143-150 *)
Definition content_of_history (history : list Turn) : list Content :=
  flat_map
    (fun entry =>
       if str_eqb (type entry) (py"text") then
         [{| content_role :=
               if str_eqb (role entry) (py"user") then py"user"
               else py"model";
             parts := [Text (content entry)] |}]
       else [])
    history.

(** The database after the call, and the text shown when the reply was
    delivered ([None] on the path of the [except]). *)
Definition process_content (db : Database) (message : Message)
    (content_type : str) : Database * option str :=
  let chat_id := msg_chat message in
  let history := get_chat_history db chat_id 1000000 in
  let content := content_of_history history in
  let '(db, content) :=
    if str_eqb content_type (py"text") then
      (save_message db chat_id (py"user") (msg_text message) (py"text"),
       content ++ [{| content_role := py"user";
                      parts := [Text (msg_text message)] |}])
    else if str_eqb content_type (py"photo") then
      (save_message db chat_id (py"user") [1060; 1086; 1090; 1086]%N
         (py"image"),
       content ++ [{| content_role := py"user";
                      parts := [FileData (py"image/jpeg")
                                  (msg_file message)] |}])
    else if str_eqb content_type (py"audio") then
      (save_message db chat_id (py"user")
         [1040; 1091; 1076; 1080; 1086]%N (py"audio"),
       content ++ [{| content_role := py"user";
                      parts := [FileData (py"audio/mp3")
                                  (msg_file message)] |}])
    else (db, content) in
  match generate_content content with
  | Some full_response =>
      let rendered := render full_response in
      if edit_message_text (display rendered) then
        (save_message db chat_id (py"bot") (stored rendered) (py"text"),
         Some (display rendered))
      else (db, None)
  | None => (db, None)
  end.

End Handler.

(** ** Vocabulary of the properties *)

(** The escaping of one character of prose (lines 228-233, 258-263). *)
Definition esc_char (c : char) : str :=
  if N.eqb c underscore then py"\_"
  else if N.eqb c lbracket then py"\["
  else [c].

(** The test of lines 214 and 245 on the character [c] followed by
    [rest]: a backtick, a character after it, and that one no backtick. *)
Definition is_opener (c : char) (rest : str) : bool :=
  N.eqb c backtick &&
  match rest with
  | [] => false
  | d :: _ => negb (N.eqb d backtick)
  end.

Definition no_backtick (s : str) : bool :=
  forallb (fun c => negb (N.eqb c backtick)) s.





(** The spec's fence delimiter: a line that is the marker and nothing
    else. *)
Definition has_fence_line (raw : str) : bool :=
  existsb (fun line => str_eqb line fence) (split_on newline raw).

(** How many backticks a string holds. *)
Definition backticks (s : str) : nat := count_occ N.eq_dec s backtick.

(** No backtick, no underscore, no left bracket. *)
Definition plain_prose (s : str) : bool :=
  forallb (fun c => negb (N.eqb c backtick) && negb (N.eqb c underscore)
                    && negb (N.eqb c lbracket)) s.

(** The row written for a reply, and the roles the handler writes. *)
Definition bot_row (chat_id : Z) (raw : str) : Row :=
  {| row_chat := chat_id; row_role := py"bot"; row_content := raw;
     row_type := Some (py"text") |}.


(** ** Exporting the history (lines 104-118) *)

(** Lines 111-113: the text written to the export file, a line a turn. *)
Definition history_file (history : list Turn) : str :=
  flat_map
    (fun entry =>
       role entry ++ py": " ++ content entry ++ py" [" ++ type entry
       ++ py"]" ++ [newline])
    history.

(** What the save button answers: the file as a document, or the notice
    that the history is empty. *)
Inductive SaveAnswer :=
| Document (file : str)
| HistoryEmpty.

(** Lines 105-118, the name of the file apart. *)
Definition save_button_handler (db : Database) (chat_id : Z) : SaveAnswer :=
  let history := get_chat_history db chat_id 1000000 in
  match history with
  | [] => HistoryEmpty
  | _ :: _ => Document (history_file history)
  end.

(** No white space in a string. *)
Definition no_space (s : str) : bool :=
  forallb (fun c => negb (isspace c)) s.

(** Every character but the backslash. *)
Definition not_backslash (c : char) : bool := negb (N.eqb c backslash).

(** The turn of a row written by [save_message]. *)
Definition turn (role content msg_type : str) : Turn :=
  {| role := role; content := content; type := msg_type |}.

(** The row written for a text message of the user. *)
Definition user_text_row (message : Message) : Row :=
  {| row_chat := msg_chat message; row_role := py"user";
     row_content := msg_text message; row_type := Some (py"text") |}.

(** Lines 152-182: the rows written for the incoming message, by the kind
    of content. *)
Definition user_rows (message : Message) (content_type : str) : list Row :=
  if str_eqb content_type (py"text") then [user_text_row message]
  else if str_eqb content_type (py"photo") then
    [{| row_chat := msg_chat message; row_role := py"user";
        row_content := [1060; 1086; 1090; 1086]%N;
        row_type := Some (py"image") |}]
  else if str_eqb content_type (py"audio") then
    [{| row_chat := msg_chat message; row_role := py"user";
        row_content := [1040; 1091; 1076; 1080; 1086]%N;
        row_type := Some (py"audio") |}]
  else [].



Example render_a_b : display (render (py"a_b")) = py"a\_b".
Proof. reflexivity. Qed.

(** ** Facts about the string operations *)

Lemma startswith_app (p r : str) : startswith (p ++ r) p = true.
Proof.
  induction p as [|x p IH]; simpl; [reflexivity|].
  now rewrite N.eqb_refl, IH.
Qed.

Lemma startswith_inv (p s : str) :
  startswith s p = true -> exists r, s = p ++ r.
Proof.
  revert s; induction p as [|x p IH]; intros s H.
  - now exists s.
  - destruct s as [|y s]; simpl in H; [discriminate|].
    apply andb_true_iff in H as [Hxy Hp].
    apply N.eqb_eq in Hxy; subst y.
    destruct (IH _ Hp) as [r ->]. now exists r.
Qed.

Lemma contains_iff (s sub : str) :
  contains s sub = true <-> exists l r, s = l ++ sub ++ r.
Proof.
  split.
  - induction s as [|c s IH]; simpl; intros H.
    + rewrite orb_false_r in H. apply startswith_inv in H as [r ->].
      now exists [], r.
    + apply orb_true_iff in H as [H|H].
      * apply startswith_inv in H as [r ->]. now exists [], r.
      * destruct (IH H) as (l & r & ->). now exists (c :: l), r.
  - intros (l & r & ->). induction l as [|c l IH]; simpl.
    + pose proof (startswith_app sub r) as H.
      destruct (sub ++ r); simpl; now rewrite H.
    + rewrite IH. apply orb_true_r.
Qed.

Lemma no_backtick_In (s : str) : no_backtick s = true <-> ~ In backtick s.
Proof.
  unfold no_backtick. rewrite forallb_forall. split.
  - intros H Hin. specialize (H _ Hin). now rewrite N.eqb_refl in H.
  - intros H c Hin. destruct (N.eqb_spec c backtick); [now subst|reflexivity].
Qed.

Lemma no_backtick_no_fence (s : str) :
  no_backtick s = true -> contains s fence = false.
Proof.
  intros H. destruct (contains s fence) eqn:E; [|reflexivity].
  apply contains_iff in E as (l & r & ->).
  apply no_backtick_In in H. exfalso. apply H.
  apply in_or_app. right. now left.
Qed.

Lemma index_of_none (c : char) (s : str) :
  index_of c s = None <-> ~ In c s.
Proof.
  induction s as [|x s IH]; simpl.
  - tauto.
  - destruct (N.eqb_spec x c).
    + split; [discriminate|]. intros H. exfalso. apply H. now left.
    + destruct (index_of c s).
      * split; [discriminate|]. intros H. exfalso.
        assert (~ In c s) as H' by tauto. apply IH in H'. discriminate.
      * split; [|reflexivity]. intros _ [H|H]; [congruence|].
        now apply IH.
Qed.


Lemma index_of_lt (c : char) (s : str) (k : nat) :
  index_of c s = Some k -> k < length s.
Proof.
  revert k; induction s as [|x s IH]; simpl; intros k H; [discriminate|].
  destruct (N.eqb x c); [injection H as <-; lia|].
  destruct (index_of c s); [|discriminate].
  injection H as <-. specialize (IH _ eq_refl). lia.
Qed.

Lemma find_ge (s : str) (c : char) (start e : nat) :
  find s c start = Some e -> start <= e.
Proof.
  unfold find. destruct (index_of c (skipn start s)); [|discriminate].
  intros [= <-]. lia.
Qed.

Lemma skipn_plus_app (pre s : str) (k : nat) :
  skipn (length pre + k) (pre ++ s) = skipn k s.
Proof. induction pre; simpl; auto. Qed.

Lemma at_plus_app (pre s : str) (k : nat) :
  at_ (pre ++ s) (length pre + k) = at_ s k.
Proof. unfold at_. induction pre; simpl; auto. Qed.

Lemma find_plus_app (pre s : str) (c : char) (k : nat) :
  find (pre ++ s) c (length pre + k) =
  option_map (Nat.add (length pre)) (find s c k).
Proof.
  unfold find. rewrite skipn_plus_app.
  destruct (index_of c (skipn k s)); simpl; [f_equal; lia|reflexivity].
Qed.

Lemma slice_plus_app (pre s : str) (i j : nat) :
  slice (pre ++ s) (length pre + i) (length pre + j) = slice s i j.
Proof.
  unfold slice. rewrite skipn_plus_app. f_equal. lia.
Qed.

(** ** Facts about the scanning loop *)

Section ScanFacts.

Variable lone : char -> str.

(** The loop only ever appends to [out]. *)
Lemma scan_loop_acc (fuel : nat) (text : str) :
  forall j out,
    scan_loop lone fuel text j out = out ++ scan_loop lone fuel text j [].
Proof.
  induction fuel as [|fuel IH]; intros j out; simpl.
  - now rewrite app_nil_r.
  - destruct (j <? length text); [|now rewrite app_nil_r].
    destruct (_ && _ && _).
    + destruct (find text backtick (j + 1)).
      * rewrite IH, (IH _ (slice _ _ _)). now rewrite app_assoc.
      * rewrite IH, (IH _ (lone _)). now rewrite app_assoc.
    + destruct (N.eqb _ underscore); [|destruct (N.eqb _ lbracket)].
      * rewrite IH, (IH _ (py"\_")). now rewrite app_assoc.
      * rewrite IH, (IH _ (py"\[")). now rewrite app_assoc.
      * rewrite IH, (IH _ [_]). now rewrite app_assoc.
Qed.

(** More iterations than characters left change nothing: the loop has
    stopped by itself. *)
Lemma scan_loop_fuel (text : str) :
  forall fuel fuel' j out,
    length text - j <= fuel -> length text - j <= fuel' ->
    scan_loop lone fuel text j out = scan_loop lone fuel' text j out.
Proof.
  induction fuel as [|fuel IH]; intros fuel' j out H H'.
  - destruct fuel' as [|fuel']; simpl; [reflexivity|].
    destruct (Nat.ltb_spec j (length text)); [lia|reflexivity].
  - destruct fuel' as [|fuel']; simpl.
    + destruct (Nat.ltb_spec j (length text)); [lia|reflexivity].
    + destruct (Nat.ltb_spec j (length text)); [|reflexivity].
      destruct (_ && _ && _).
      * destruct (find text backtick (j + 1)) as [e|] eqn:E.
        -- apply find_ge in E. apply IH; lia.
        -- apply IH; lia.
      * destruct (N.eqb _ underscore); [|destruct (N.eqb _ lbracket)];
          apply IH; lia.
Qed.

(** What the loop does from an index on depends on the text from that
    index on only. *)
Lemma scan_loop_shift (pre text : str) :
  forall fuel j,
    scan_loop lone fuel (pre ++ text) (length pre + j) [] =
    scan_loop lone fuel text j [].
Proof.
  induction fuel as [|fuel IH]; intros j; simpl; [reflexivity|].
  rewrite length_app.
  replace (length pre + j <? length pre + length text)
    with (j <? length text)
    by (destruct (Nat.ltb_spec j (length text));
        destruct (Nat.ltb_spec (length pre + j) (length pre + length text));
        auto; lia).
  destruct (Nat.ltb_spec j (length text)) as [Hj|Hj]; [|reflexivity].
  replace (length pre + j <? length pre + length text - 1)
    with (j <? length text - 1)
    by (destruct (Nat.ltb_spec j (length text - 1));
        destruct (Nat.ltb_spec (length pre + j)
                    (length pre + length text - 1));
        auto; lia).
  replace (length pre + j + 1) with (length pre + (j + 1)) by lia.
  rewrite !at_plus_app, find_plus_app.
  destruct (_ && _ && _).
  - destruct (find text backtick (j + 1)) as [e|]; simpl.
    + replace (length pre + e + 1) with (length pre + (e + 1)) by lia.
      rewrite slice_plus_app.
      rewrite scan_loop_acc, IH, <- scan_loop_acc. reflexivity.
    + rewrite scan_loop_acc, IH, <- scan_loop_acc. reflexivity.
  - destruct (N.eqb _ underscore); [|destruct (N.eqb _ lbracket)];
      rewrite scan_loop_acc, IH, <- scan_loop_acc; reflexivity.
Qed.

(** The loop standing right after [pre] finishes with the scan of what
    is left. *)
Lemma scan_loop_rest (pre text out : str) (fuel : nat) :
  length text <= fuel ->
  scan_loop lone fuel (pre ++ text) (length pre) out =
  out ++ scan lone text.
Proof.
  intros H. rewrite scan_loop_acc. f_equal.
  replace (length pre) with (length pre + 0) at 1 by lia.
  rewrite scan_loop_shift. unfold scan. apply scan_loop_fuel; lia.
Qed.

Lemma scan_nil : scan lone [] = [].
Proof. reflexivity. Qed.

(** One iteration at the head of a text, in terms of the text left. *)
Lemma scan_head (c : char) (rest : str) :
  scan lone (c :: rest) =
  if is_opener c rest then
    match index_of backtick rest with
    | Some k => c :: firstn (S k) rest ++ scan lone (skipn (S k) rest)
    | None => lone c ++ scan lone rest
    end
  else esc_char c ++ scan lone rest.
Proof.
  unfold scan at 1. change (length (c :: rest)) with (S (length rest)).
  cbn [scan_loop]. change (length (c :: rest)) with (S (length rest)).
  change (0 <? S (length rest)) with true. cbv iota.
  assert (Hc : (0 <? S (length rest) - 1)
               && N.eqb (at_ (c :: rest) 0) backtick
               && negb (N.eqb (at_ (c :: rest) (0 + 1)) backtick)
               = is_opener c rest).
  { unfold is_opener, at_. destruct rest as [|d rest]; simpl.
    - now rewrite andb_false_r.
    - now destruct (N.eqb c backtick). }
  rewrite Hc. change (at_ (c :: rest) 0) with c.
  destruct (is_opener c rest).
  - unfold find. change (skipn (0 + 1) (c :: rest)) with rest.
    destruct (index_of backtick rest) as [k|] eqn:E.
    + apply index_of_lt in E.
      pose proof (firstn_skipn (S k) rest) as Hr.
      assert (Hl : length (c :: firstn (S k) rest) = 0 + 1 + k + 1).
      { change (length (c :: firstn (S k) rest))
          with (S (length (firstn (S k) rest))).
        rewrite length_firstn. lia. }
      rewrite <- Hl.
      replace (slice (c :: rest) 0 (length (c :: firstn (S k) rest)))
        with (c :: firstn (S k) rest).
      2:{ unfold slice. rewrite Hl. simpl skipn.
          replace (0 + 1 + k + 1 - 0) with (S (S k)) by lia.
          reflexivity. }
      replace (c :: rest) with ((c :: firstn (S k) rest) ++ skipn (S k) rest)
        at 1 by (now rewrite <- app_comm_cons, Hr).
      rewrite scan_loop_rest; [reflexivity|].
      rewrite length_skipn. lia.
    + apply (scan_loop_rest [c] rest). lia.
  - unfold esc_char.
    destruct (N.eqb c underscore); [|destruct (N.eqb c lbracket)];
      apply (scan_loop_rest [c] rest); lia.
Qed.

(** A character that opens no span is escaped by itself. *)
Lemma scan_plain (c : char) (rest : str) :
  is_opener c rest = false ->
  scan lone (c :: rest) = esc_char c ++ scan lone rest.
Proof. intros H. now rewrite scan_head, H. Qed.


(** An opening backtick that nothing closes: [lone] of it, and on. *)
Lemma scan_lone (rest : str) :
  rest <> [] -> no_backtick rest = true ->
  scan lone (backtick :: rest) = lone backtick ++ scan lone rest.
Proof.
  intros Hne H. destruct rest as [|d rest]; [congruence|].
  pose proof H as Hin. apply no_backtick_In, index_of_none in Hin.
  simpl in H. apply andb_true_iff in H as [Hd _].
  rewrite scan_head, Hin.
  unfold is_opener. now rewrite N.eqb_refl, Hd.
Qed.

(** Prose without backticks is escaped character by character. *)
Lemma scan_no_backtick (s : str) :
  no_backtick s = true -> scan lone s = flat_map esc_char s.
Proof.
  induction s as [|c s IH]; intros H; [reflexivity|].
  simpl in H. apply andb_true_iff in H as [Hc Hs].
  rewrite scan_plain.
  - simpl. now rewrite IH.
  - unfold is_opener. apply negb_true_iff in Hc. now rewrite Hc.
Qed.


End ScanFacts.

(** The two scans from their first character on. *)
Lemma escape_text_lone_backtick (pre tail : str) :
  no_backtick pre = true -> tail <> [] -> no_backtick tail = true ->
  escape_text (pre ++ backtick :: tail) =
  flat_map esc_char pre ++ py"\`" ++ flat_map esc_char tail.
Proof.
  intros Hpre Hne Htail. unfold escape_text.
  induction pre as [|c pre IH].
  - cbn [app flat_map]. rewrite scan_lone by assumption.
    now rewrite scan_no_backtick.
  - simpl in Hpre. apply andb_true_iff in Hpre as [Hc Hpre].
    cbn [app flat_map]. rewrite scan_plain.
    + now rewrite IH, app_assoc.
    + unfold is_opener. apply negb_true_iff in Hc. now rewrite Hc.
Qed.

Lemma escape_line_lone_backtick (pre tail : str) :
  no_backtick pre = true -> tail <> [] -> no_backtick tail = true ->
  escape_line (pre ++ backtick :: tail) =
  flat_map esc_char pre ++ backtick :: flat_map esc_char tail.
Proof.
  intros Hpre Hne Htail. unfold escape_line.
  induction pre as [|c pre IH].
  - cbn [app flat_map]. rewrite scan_lone by assumption.
    now rewrite scan_no_backtick.
  - simpl in Hpre. apply andb_true_iff in Hpre as [Hc Hpre].
    cbn [app flat_map]. rewrite scan_plain.
    + now rewrite IH, app_assoc.
    + unfold is_opener. apply negb_true_iff in Hc. now rewrite Hc.
Qed.

Lemma scan_final_backtick (lone : char -> str) (s : str) :
  no_backtick s = true ->
  scan lone (s ++ [backtick]) = flat_map esc_char s ++ [backtick].
Proof.
  intros H. induction s as [|c s IH].
  - cbn [app flat_map]. now rewrite scan_plain.
  - simpl in H. apply andb_true_iff in H as [Hc Hs].
    cbn [app flat_map]. rewrite scan_plain.
    + now rewrite IH, app_assoc.
    + unfold is_opener. apply negb_true_iff in Hc. now rewrite Hc.
Qed.

(** ** Facts about fences and lines *)

Lemma str_eqb_eq (a b : str) : str_eqb a b = true <-> a = b.
Proof.
  unfold str_eqb. destruct (list_eq_dec N.eq_dec a b); split;
    congruence.
Qed.

Lemma backticks_app (a b : str) :
  backticks (a ++ b) = backticks a + backticks b.
Proof. apply count_occ_app. Qed.

Lemma no_backtick_count (s : str) :
  no_backtick s = true -> backticks s = 0.
Proof.
  intros H. apply no_backtick_In in H. now apply count_occ_not_In.
Qed.

(** A text with fewer than three backticks holds no fence. *)
Lemma few_backticks_no_fence (s : str) :
  backticks s < 3 -> contains s fence = false.
Proof.
  intros H. destruct (contains s fence) eqn:E; [|reflexivity].
  apply contains_iff in E as (l & r & ->).
  rewrite !backticks_app in H.
  change (backticks fence) with 3 in H. lia.
Qed.

Lemma no_fence_no_start (s : str) :
  contains s fence = false -> startswith s fence = false.
Proof.
  intros H. destruct (startswith s fence) eqn:E; [|reflexivity].
  destruct s; cbn [contains] in H; rewrite E in H; discriminate.
Qed.

Lemma split_on_head (sep : char) (s : str) :
  exists l0 ls r, split_on sep s = l0 :: ls /\ s = l0 ++ r.
Proof.
  induction s as [|c s (l0 & ls & r & E & Hs)]; simpl.
  - now exists [], [], [].
  - destruct (N.eqb c sep).
    + now exists [], (split_on sep s), (c :: s).
    + rewrite E. exists (c :: l0), ls, r. now rewrite Hs at 1.
Qed.

(** Every line of a text is a stretch of it. *)
Lemma split_on_In (sep : char) (s line : str) :
  In line (split_on sep s) -> exists l r, s = l ++ line ++ r.
Proof.
  revert line. induction s as [|c s IH]; simpl; intros line H.
  - destruct H as [<-|[]]. now exists [], [].
  - destruct (N.eqb c sep).
    + destruct H as [<-|H]; [now exists [], (c :: s)|].
      destruct (IH _ H) as (l & r & ->). now exists (c :: l), r.
    + destruct (split_on_head sep s) as (l0 & ls & r0 & E & Hs).
      rewrite E in H, IH. destruct H as [<-|H].
      * exists [], r0. simpl. now rewrite Hs at 1.
      * destruct (IH line (or_intror H)) as (l & r & ->).
        now exists (c :: l), r.
Qed.

Lemma fence_line_contains (raw : str) :
  has_fence_line raw = true -> contains raw fence = true.
Proof.
  unfold has_fence_line. intros H.
  apply existsb_exists in H as (line & Hin & Heq).
  apply str_eqb_eq in Heq. subst line.
  apply contains_iff. eapply split_on_In; eassumption.
Qed.

(** ** Facts about the window *)

Lemma isspace_text_nonempty (s cur : str) :
  cur <> [] \/ (exists c, In c s /\ isspace c = false) ->
  split_ws_from cur s <> [].
Proof.
  revert cur. induction s as [|c s IH]; intros cur H; simpl.
  - destruct H as [H|(c & [] & _)]. destruct cur; congruence.
  - destruct (isspace c) eqn:E.
    + destruct cur as [|x cur]; [|discriminate].
      apply IH. right. destruct H as [H|(d & [->|Hd] & Hsp)];
        [congruence|congruence|eauto].
    + apply IH. left. destruct cur; discriminate.
Qed.

(** The costed text always holds the colon: no turn is free. *)
Lemma cost_pos (t : Turn) : (1 <= cost t)%Z.
Proof.
  unfold cost, split_ws.
  pose proof (@isspace_text_nonempty
    (role t ++ py": " ++ content t ++ py" [" ++ type t ++ py"]") []) as H.
  destruct (split_ws_from _ _).
  - exfalso. apply H; [|reflexivity]. right. exists 58%N. split.
    + apply in_or_app. right. now left.
    + reflexivity.
  - simpl length. lia.
Qed.

Lemma total_cost_app (a b : list Turn) :
  total_cost (a ++ b) = (total_cost a + total_cost b)%Z.
Proof. induction a as [|t a IH]; simpl; [reflexivity|]. rewrite IH. lia. Qed.

Lemma total_cost_rev (a : list Turn) : total_cost (rev a) = total_cost a.
Proof.
  induction a as [|t a IH]; simpl; [reflexivity|].
  rewrite total_cost_app, IH. simpl. lia.
Qed.

(** The loop takes the first [k] rows, which fit, and stops either at the
    end or at a row that does not fit any more. *)
Lemma history_loop_spec (max_tokens : Z) (rows : list Turn) :
  forall token_count history, exists k,
    history_loop rows max_tokens token_count history
    = history ++ firstn k rows
    /\ (k = 0 \/ (token_count + total_cost (firstn k rows) <= max_tokens)%Z)
    /\ (forall row older, skipn k rows = row :: older ->
          (token_count + total_cost (firstn k rows) + cost row
           > max_tokens)%Z).
Proof.
  induction rows as [|row rest IH]; intros tc hist; simpl.
  - exists 0. simpl. rewrite app_nil_r. repeat split; auto. discriminate.
  - destruct (Z.gtb_spec (tc + cost row) max_tokens) as [Hgt|Hle].
    + exists 0. simpl. rewrite app_nil_r. repeat split; auto.
      intros r o [= <- <-]. lia.
    + destruct (IH (tc + cost row)%Z (hist ++ [row])) as (k & E & Hfit & Hstop).
      exists (S k). simpl. rewrite E, <- app_assoc. repeat split.
      * right. destruct Hfit as [->|Hfit]; simpl; [|simpl in *]; lia.
      * intros r o Hr. specialize (Hstop _ _ Hr). lia.
Qed.

Lemma window_spec (rows : list Turn) (max_tokens : Z) :
  exists k,
    window rows max_tokens = rev (firstn k rows)
    /\ (k = 0 \/ (total_cost (firstn k rows) <= max_tokens)%Z)
    /\ (forall row older, skipn k rows = row :: older ->
          (total_cost (firstn k rows) + cost row > max_tokens)%Z).
Proof.
  unfold window.
  destruct (history_loop_spec max_tokens rows 0 []) as (k & E & Hfit & Hstop).
  exists k. rewrite E. repeat split; auto.
Qed.

Lemma total_cost_nonneg (turns : list Turn) : (0 <= total_cost turns)%Z.
Proof.
  induction turns as [|t turns IH]; simpl; [lia|].
  pose proof (cost_pos t). lia.
Qed.

(** ** The window: budget and order *)

(** C2, as stated, fails: with a negative budget the window is empty and
    its total cost, 0, is above the budget. *)
Lemma window_cost_above_negative_budget :
  let turn := {| role := py"user"; content := py"hi"; type := py"text" |} in
  window [turn] (-1) = [] /\ ~ (total_cost (window [turn] (-1)) <= -1)%Z.
Proof. split; [reflexivity|]. vm_compute. intros H. now apply H. Qed.

(** C2 (amended): for every transcript and every budget that is not
    negative the total cost of the window, each turn costed by the number
    of white-space separated tokens of "<role>: <content> [<type>]", is at
    most the budget; for every budget <= 0 the window is empty; a newest
    turn that alone costs more than the budget leaves the window empty;
    and the window is made of whole turns, the [k] newest ones, the scan
    stopping at the first turn whose cost no longer fits. *)
Theorem window_within_budget (rows : list Turn) (budget : Z) :
  ((0 <= budget)%Z -> (total_cost (window rows budget) <= budget)%Z)
  /\ ((budget <= 0)%Z -> window rows budget = [])
  /\ (forall row older, rows = row :: older -> (cost row > budget)%Z ->
        window rows budget = [])
  /\ (exists k, window rows budget = rev (firstn k rows)
        /\ forall row older, skipn k rows = row :: older ->
             (total_cost (firstn k rows) + cost row > budget)%Z).
Proof.
  destruct (window_spec rows budget) as (k & E & Hfit & Hstop).
  assert (Hk : forall row older, rows = row :: older ->
                 (cost row > budget)%Z -> k = 0).
  { intros row older -> Hrow. destruct k as [|k]; [reflexivity|].
    destruct Hfit as [Hfit|Hfit]; [discriminate|]. simpl in Hfit.
    pose proof (total_cost_nonneg (firstn k older)). lia. }
  repeat split.
  - intros Hb. rewrite E, total_cost_rev.
    destruct Hfit as [->|Hfit]; [simpl; lia|assumption].
  - intros Hb. rewrite E. destruct rows as [|row older].
    + now rewrite firstn_nil.
    + rewrite (Hk row older eq_refl); [reflexivity|].
      pose proof (cost_pos row). lia.
  - intros row older Hrows Hrow. rewrite E.
    now rewrite (Hk row older Hrows Hrow).
  - exists k. split; assumption.
Qed.

Lemma window_within_budget_witness :
  let u := {| role := py"user"; content := py"hi there"; type := py"text" |} in
  let b := {| role := py"bot"; content := py"hello"; type := py"text" |} in
  (0 <= 5)%Z /\ (total_cost (window [b; u; b] 5) <= 5)%Z
  /\ window [b; u; b] 5 = [b].
Proof.
  intros u b. split; [lia|]. split.
  - apply (window_within_budget [b; u; b] 5). lia.
  - reflexivity.
Defined.

(** C3: the window is a contiguous suffix of the transcript in the order
    it was written: nothing is reordered, nothing between two included
    turns is left out, and a window that is not empty ends with the newest
    turn.  The same holds of [get_chat_history] over the stored rows. *)
Theorem window_is_suffix (rows : list Turn) (budget : Z) :
  (exists older, rev rows = older ++ window rows budget)
  /\ (window rows budget <> [] ->
      exists newest rest earlier,
        rows = newest :: rest /\ window rows budget = earlier ++ [newest])
  /\ (forall db chat_id, exists older,
        chronological db chat_id
        = older ++ get_chat_history db chat_id budget).
Proof.
  assert (Hsuf : forall rs, exists older, rev rs = older ++ window rs budget).
  { intros rs. destruct (window_spec rs budget) as (k & E & _ & _).
    exists (rev (skipn k rs)).
    now rewrite E, <- rev_app_distr, firstn_skipn. }
  split; [apply Hsuf|]. split.
  - destruct (window_spec rows budget) as (k & E & _ & _).
    rewrite E. intros Hne.
    destruct rows as [|newest rest]; [now rewrite firstn_nil in Hne|].
    destruct k as [|k]; [now simpl in Hne|].
    exists newest, rest, (rev (firstn k rest)). split; reflexivity.
  - intros db chat_id. unfold get_chat_history, fetchall.
    destruct (Hsuf (rev (chronological db chat_id))) as [older E].
    exists older. now rewrite rev_involutive in E.
Qed.

Lemma window_is_suffix_witness :
  let u := {| role := py"user"; content := py"hi there"; type := py"text" |} in
  let b := {| role := py"bot"; content := py"hello"; type := py"text" |} in
  window [b; u; u] 6 <> []
  /\ exists newest rest earlier,
       [b; u; u] = newest :: rest /\ window [b; u; u] 6 = earlier ++ [newest].
Proof.
  intros u b.
  assert (H : window [b; u; u] 6 <> []) by (vm_compute; discriminate).
  split; [exact H|].
  exact (proj1 (proj2 (window_is_suffix [b; u; u] 6)) H).
Defined.

(** ** The renderer *)

Lemma render_keeps_raw (raw : str) : stored (render raw) = raw.
Proof. unfold render. now destruct (branch_of raw). Qed.

(** C1: for every raw reply the stored string of [render] is the raw reply
    itself, whichever of the two branches produced the display string. *)
Theorem render_stored_is_raw (raw : str) : stored (render raw) = raw.
Proof. unfold render. destruct (branch_of raw); reflexivity. Qed.

(** C4, as stated, fails: a reply with the three backticks inside a line,
    and no line that is the marker alone, is rendered line by line; its
    display is not what the whole-text scan gives. *)
Lemma fence_inside_line_selects_branch_A :
  has_fence_line (py"a```b_c") = false
  /\ branch_of (py"a```b_c") = BranchA
  /\ display (render (py"a```b_c")) = py"a```b\_c"
  /\ escape_text (py"a```b_c") = py"a``\`b\_c".
Proof. repeat split; reflexivity. Qed.

(** C4 (amended): [render] takes the line-by-line algorithm if and only if
    the raw reply holds the three-character marker anywhere, as a
    substring; so it does whenever some line is the marker alone, and the
    whole-text scan applies exactly to the replies without that
    substring. *)
Theorem branch_by_substring (raw : str) :
  (branch_of raw = BranchA <-> exists l r, raw = l ++ fence ++ r)
  /\ (has_fence_line raw = true -> branch_of raw = BranchA)
  /\ (branch_of raw = BranchA ->
      display (render raw)
      = join newline (format_lines false (split_on newline raw)))
  /\ (branch_of raw <> BranchA -> display (render raw) = escape_text raw).
Proof.
  unfold render, branch_of. repeat split.
  - intros H. apply contains_iff. now destruct (contains raw fence).
  - intros H. apply contains_iff in H. now rewrite H.
  - intros H. now rewrite (fence_line_contains raw H).
  - destruct (contains raw fence); [reflexivity|discriminate].
  - destruct (contains raw fence); [congruence|reflexivity].
Qed.

Lemma branch_by_substring_witness :
  has_fence_line (join newline [py"x"; py"```"; py"y"]) = true
  /\ branch_of (join newline [py"x"; py"```"; py"y"]) = BranchA.
Proof.
  assert (H : has_fence_line (join newline [py"x"; py"```"; py"y"]) = true)
    by reflexivity.
  split; [exact H|].
  exact (proj1 (proj2 (branch_by_substring _)) H).
Defined.



(** C6: in the line-by-line algorithm a line that is the marker alone
    flips [in_code_block]; when it opens a block it is shown with the tag
    [python] added, when it closes one it is shown as the bare marker; and
    every line met while [in_code_block] is true is shown as it is. *)
Theorem fence_lines (in_code_block : bool) (line : str) (rest : list str) :
  format_line in_code_block fence
  = (negb in_code_block, if in_code_block then fence else py"```python")
  /\ snd (format_line true line) = line
  /\ format_lines true (line :: rest)
     = line :: format_lines (fst (format_line true line)) rest
  /\ display (render (join newline [py"```"; py"code_here"; py"```"]))
     = join newline [py"```python"; py"code_here"; py"```"].
Proof.
  assert (Hline : snd (format_line true line) = line).
  { unfold format_line. destruct (startswith line fence); [|reflexivity].
    cbn [negb andb]. rewrite andb_true_r, andb_false_r.
    destruct (str_eqb line fence) eqn:E; [|reflexivity].
    apply str_eqb_eq in E. now subst line. }
  repeat split.
  - now destruct in_code_block.
  - exact Hline.
  - cbn [format_lines]. rewrite <- Hline at 2.
    now destruct (format_line true line).
Qed.

(** C7, as stated, fails in the line-by-line algorithm: after an opening
    backtick that nothing closes the rest of the line is still escaped. *)
Lemma unterminated_tail_is_escaped :
  let raw := join newline [py"```"; py"```"; py"`a_b"] in
  branch_of raw = BranchA
  /\ display (render raw) = join newline [py"```python"; py"```"; py"`a\_b"]
  /\ display (render raw) <> join newline [py"```python"; py"```"; py"`a_b"].
Proof. repeat split; try reflexivity. vm_compute. discriminate. Qed.

(** C7 (amended): at an opening backtick with no backtick after it in the
    scanned unit, the line scan shows the backtick itself and the
    whole-text scan shows backslash-backtick; both then go on as in prose,
    so that underscores and left brackets after it are still escaped. *)
Theorem unterminated_span (pre tail : str) :
  no_backtick pre = true -> tail <> [] -> no_backtick tail = true ->
  format_line false (pre ++ backtick :: tail)
  = (false, flat_map esc_char pre ++ backtick :: flat_map esc_char tail)
  /\ branch_of (pre ++ backtick :: tail) = BranchB
  /\ display (render (pre ++ backtick :: tail))
     = flat_map esc_char pre
       ++ backslash :: backtick :: flat_map esc_char tail.
Proof.
  intros Hpre Hne Htail.
  assert (Hf : contains (pre ++ backtick :: tail) fence = false).
  { apply few_backticks_no_fence.
    change (backtick :: tail) with ([backtick] ++ tail).
    rewrite !backticks_app.
    rewrite (no_backtick_count _ Hpre), (no_backtick_count _ Htail).
    change (backticks [backtick]) with 1. lia. }
  repeat split.
  - unfold format_line. rewrite (no_fence_no_start _ Hf). cbn [negb].
    now rewrite escape_line_lone_backtick.
  - unfold branch_of. now rewrite Hf.
  - unfold render, branch_of. rewrite Hf. cbn [display].
    now rewrite escape_text_lone_backtick.
Qed.

Lemma unterminated_span_witness :
  no_backtick (py"so ") = true /\ py"a_b" <> [] /\ no_backtick (py"a_b") = true
  /\ format_line false (py"so `a_b") = (false, py"so `a\_b")
  /\ display (render (py"so `a_b")) = py"so \`a\_b".
Proof.
  split; [reflexivity|]. split; [discriminate|]. split; [reflexivity|].
  destruct (unterminated_span (py"so ") (tail := py"a_b") eq_refl
              ltac:(discriminate) eq_refl) as (HA & _ & HB).
  split; [exact HA|exact HB].
Defined.

Lemma plain_prose_no_backtick (s : str) :
  plain_prose s = true -> no_backtick s = true.
Proof.
  unfold plain_prose, no_backtick. rewrite !forallb_forall.
  intros H c Hin. specialize (H c Hin).
  now destruct (N.eqb c backtick).
Qed.

Lemma plain_prose_unchanged (s : str) :
  plain_prose s = true -> flat_map esc_char s = s.
Proof.
  induction s as [|c s IH]; simpl; intros H; [reflexivity|].
  apply andb_true_iff in H as [Hc Hs]. rewrite (IH Hs).
  unfold esc_char.
  destruct (N.eqb c backtick), (N.eqb c underscore), (N.eqb c lbracket);
    try discriminate; reflexivity.
Qed.

(** C8: on a string with no backtick, no underscore and no left bracket
    (a right bracket is never escaped and need not be excluded) the
    display string is the string itself, so rendering the display string
    again gives the same display string. *)
Theorem render_idempotent (s : str) :
  plain_prose s = true ->
  display (render s) = s
  /\ display (render (display (render s))) = display (render s).
Proof.
  intros H.
  assert (E : display (render s) = s).
  { unfold render, branch_of.
    rewrite (no_backtick_no_fence _ (plain_prose_no_backtick _ H)).
    cbn [display]. unfold escape_text.
    rewrite scan_no_backtick by now apply plain_prose_no_backtick.
    now apply plain_prose_unchanged. }
  split; [exact E|]. now rewrite !E.
Qed.

Lemma render_idempotent_witness :
  plain_prose (py"see *this*, ok]") = true
  /\ display (render (display (render (py"see *this*, ok]"))))
     = display (render (py"see *this*, ok]")).
Proof.
  split; [reflexivity|].
  exact (proj2 (render_idempotent (py"see *this*, ok]") eq_refl)).
Defined.

(** C10: a backtick at the last index is never taken as the opening of a
    span, since the test asks for a character after it: whenever either
    loop stands on it, it appends the backtick alone and ends; so a text
    or prose line whose only backtick is its last character is shown with
    that backtick as it is, no backslash before it. *)
Theorem final_backtick_literal :
  (forall lone fuel text out,
     text <> [] -> at_ text (length text - 1) = backtick ->
     scan_loop lone (S fuel) text (length text - 1) out = out ++ [backtick])
  /\ (forall s, no_backtick s = true ->
        branch_of (s ++ [backtick]) = BranchB
        /\ display (render (s ++ [backtick]))
           = flat_map esc_char s ++ [backtick])
  /\ (forall s, no_backtick s = true ->
        format_line false (s ++ [backtick])
        = (false, flat_map esc_char s ++ [backtick])).
Proof.
  assert (Hf : forall s, no_backtick s = true ->
                 contains (s ++ [backtick]) fence = false).
  { intros s Hs. apply few_backticks_no_fence.
    rewrite backticks_app, no_backtick_count by assumption.
    change (backticks [backtick]) with 1. lia. }
  split; [|split].
  - intros lone fuel text out Hne Hlast.
    assert (Hlen : 0 < length text) by (destruct text; simpl; [congruence|lia]).
    cbn [scan_loop]. rewrite Hlast.
    destruct (Nat.ltb_spec (length text - 1) (length text)); [|lia].
    rewrite Nat.ltb_irrefl. cbn [andb].
    change (N.eqb backtick underscore) with false.
    change (N.eqb backtick lbracket) with false. cbv iota.
    destruct fuel as [|fuel]; cbn [scan_loop]; [reflexivity|].
    destruct (Nat.ltb_spec (length text - 1 + 1) (length text)); [lia|].
    reflexivity.
  - intros s Hs. unfold render, branch_of. rewrite (Hf s Hs).
    split; [reflexivity|]. cbn [display]. unfold escape_text.
    now apply scan_final_backtick.
  - intros s Hs. unfold format_line.
    rewrite (no_fence_no_start _ (Hf s Hs)). cbn [negb].
    unfold escape_line. now rewrite scan_final_backtick.
Qed.

Lemma final_backtick_literal_witness :
  no_backtick (py"x_y") = true
  /\ display (render (py"x_y`")) = py"x\_y`"
  /\ format_line false (py"x_y`") = (false, py"x\_y`").
Proof.
  split; [reflexivity|].
  destruct final_backtick_literal as (_ & HB & HA).
  split.
  - exact (proj2 (HB (py"x_y") eq_refl)).
  - exact (HA (py"x_y") eq_refl).
Defined.

(** ** The stored turns *)

Lemma str_eqb_refl (a : str) : str_eqb a a = true.
Proof. now apply str_eqb_eq. Qed.








(** ** More on the window *)

Lemma total_cost_cons (t : Turn) (turns : list Turn) :
  total_cost (t :: turns) = (cost t + total_cost turns)%Z.
Proof. reflexivity. Qed.

Lemma total_cost_firstn_le (rows : list Turn) :
  forall k k', k <= k' ->
    (total_cost (firstn k rows) <= total_cost (firstn k' rows))%Z.
Proof.
  induction rows as [|row rows IH]; intros k k' H.
  - rewrite !firstn_nil. lia.
  - destruct k as [|k]; [simpl firstn at 1; apply total_cost_nonneg|].
    destruct k' as [|k']; [lia|]. simpl.
    specialize (IH k k'). lia.
Qed.

Lemma total_cost_firstn_next (rows : list Turn) :
  forall k row older, skipn k rows = row :: older ->
    total_cost (firstn (S k) rows)
    = (total_cost (firstn k rows) + cost row)%Z.
Proof.
  induction rows as [|r rows IH]; intros k row older H.
  - now rewrite skipn_nil in H.
  - destruct k as [|k].
    + injection H as <- <-. simpl. lia.
    + simpl in H. specialize (IH k row older H).
      change (firstn (S (S k)) (r :: rows)) with (r :: firstn (S k) rows).
      change (firstn (S k) (r :: rows)) with (r :: firstn k rows).
      rewrite !total_cost_cons. lia.
Qed.

Lemma skipn_next (rows : list Turn) (k : nat) :
  k < length rows -> exists row older, skipn k rows = row :: older.
Proof.
  revert k. induction rows as [|r rows IH]; intros k H; simpl in H; [lia|].
  destruct k as [|k]; [now exists r, rows|].
  simpl. apply IH. lia.
Qed.

(** The window as a cut of the rows at an index within them. *)
Lemma window_cut (rows : list Turn) (budget : Z) :
  exists k,
    k <= length rows
    /\ window rows budget = rev (firstn k rows)
    /\ (k = 0 \/ (total_cost (firstn k rows) <= budget)%Z)
    /\ (forall row older, skipn k rows = row :: older ->
          (total_cost (firstn k rows) + cost row > budget)%Z).
Proof.
  destruct (window_spec rows budget) as (k & E & Hfit & Hstop).
  destruct (Nat.le_gt_cases k (length rows)) as [Hk|Hk].
  - exists k. auto.
  - exists (length rows).
    rewrite firstn_all2 in E, Hfit by lia.
    rewrite firstn_all. repeat split; auto.
    + destruct Hfit as [->|Hfit]; [lia|now right].
    + intros row older H. now rewrite skipn_all in H.
Qed.

Lemma window_cut_length (rows : list Turn) (k : nat) :
  k <= length rows -> length (rev (firstn k rows)) = k.
Proof. intros H. rewrite length_rev, length_firstn. lia. Qed.

(** Any cut deeper than the one of the window is over the budget. *)
Lemma window_cut_maximal (rows : list Turn) (budget : Z) (k k' : nat) :
  (forall row older, skipn k rows = row :: older ->
     (total_cost (firstn k rows) + cost row > budget)%Z) ->
  k < k' -> k' <= length rows ->
  (total_cost (firstn k' rows) > budget)%Z.
Proof.
  intros Hstop Hlt Hle.
  destruct (@skipn_next rows k) as (row & older & E); [lia|].
  pose proof (Hstop _ _ E) as Hrow.
  rewrite <- (total_cost_firstn_next _ _ E) in Hrow.
  pose proof (@total_cost_firstn_le rows (S k) k'). lia.
Qed.

Lemma window_all (rows : list Turn) (budget : Z) :
  (total_cost rows <= budget)%Z -> window rows budget = rev rows.
Proof.
  intros H. destruct (window_cut rows budget) as (k & Hk & E & _ & Hstop).
  rewrite E. destruct (Nat.eq_dec k (length rows)) as [->|Hne].
  - now rewrite firstn_all.
  - pose proof (@window_cut_maximal rows budget k (length rows) Hstop) as Hm.
    rewrite firstn_all in Hm. lia.
Qed.

Lemma window_empty_iff (rows : list Turn) (budget : Z) :
  window rows budget = []
  <-> rows = []
      \/ exists newest older, rows = newest :: older
                              /\ (cost newest > budget)%Z.
Proof.
  split.
  - intros H. destruct rows as [|newest older]; [now left|]. right.
    exists newest, older. split; [reflexivity|].
    unfold window in H. apply (f_equal (@rev Turn)) in H.
    rewrite rev_involutive in H. cbn [rev history_loop] in H.
    destruct (Z.gtb_spec (0 + cost newest) budget) as [Hgt|Hle]; [lia|].
    exfalso.
    destruct (history_loop_spec budget older (0 + cost newest)
                ([] ++ [newest])) as (k & E & _).
    rewrite E in H.
    apply (f_equal (@length Turn)) in H.
    rewrite !length_app in H. simpl in H. lia.
  - intros [->|(newest & older & -> & Hgt)]; [reflexivity|].
    unfold window. cbn [history_loop].
    destruct (Z.gtb_spec (0 + cost newest) budget); [reflexivity|lia].
Qed.

(** X1: when the whole transcript fits the budget the window is the whole
    transcript, oldest turn first. *)
Theorem window_takes_all (rows : list Turn) (budget : Z) :
  (total_cost rows <= budget)%Z ->
  window rows budget = rev rows
  /\ forall db chat_id,
       (total_cost (fetchall db chat_id) <= budget)%Z ->
       get_chat_history db chat_id budget = chronological db chat_id.
Proof.
  intros H. split; [now apply window_all|].
  intros db chat_id Hdb. unfold get_chat_history.
  rewrite window_all by assumption.
  unfold fetchall. apply rev_involutive.
Qed.

Lemma window_takes_all_witness :
  let u := turn (py"user") (py"hi there") (py"text") in
  let b := turn (py"bot") (py"hello") (py"text") in
  (total_cost [b; u] <= 7)%Z /\ window [b; u] 7 = [u; b].
Proof.
  intros u b.
  assert (H : (total_cost [b; u] <= 7)%Z) by (vm_compute; discriminate).
  split; [exact H|].
  exact (proj1 (@window_takes_all [b; u] 7 H)).
Defined.

(** X2: the window is the largest that fits: taking any more of the newest
    turns than the window holds costs more than the budget. *)
Theorem window_maximal (rows : list Turn) (budget : Z) (k' : nat) :
  length (window rows budget) < k' -> k' <= length rows ->
  (total_cost (firstn k' rows) > budget)%Z.
Proof.
  destruct (window_cut rows budget) as (k & Hk & E & _ & Hstop).
  rewrite E, window_cut_length by assumption.
  now apply window_cut_maximal.
Qed.

Lemma window_maximal_witness :
  let u := turn (py"user") (py"hi there") (py"text") in
  let b := turn (py"bot") (py"hello") (py"text") in
  length (window [b; u; b] 5) < 2 /\ 2 <= length [b; u; b]
  /\ (total_cost (firstn 2 [b; u; b]) > 5)%Z.
Proof.
  intros u b.
  assert (H1 : length (window [b; u; b] 5) < 2) by (vm_compute; lia).
  assert (H2 : 2 <= length [b; u; b]) by (simpl; lia).
  split; [exact H1|]. split; [exact H2|].
  exact (@window_maximal [b; u; b] 5 2 H1 H2).
Defined.

(** X3: a larger budget only adds older turns in front of the window. *)
Theorem window_monotone (rows : list Turn) (budget budget' : Z) :
  (budget <= budget')%Z ->
  exists older, window rows budget' = older ++ window rows budget.
Proof.
  intros Hb.
  destruct (window_cut rows budget) as (k & Hk & E & Hfit & Hstop).
  destruct (window_cut rows budget') as (k' & Hk' & E' & Hfit' & Hstop').
  assert (Hle : k <= k').
  { destruct (Nat.le_gt_cases k k') as [H|H]; [exact H|]. exfalso.
    pose proof (@window_cut_maximal rows budget' k' k Hstop' H Hk).
    destruct Hfit as [->|Hfit]; lia. }
  exists (rev (firstn (k' - k) (skipn k rows))).
  rewrite E, E', <- rev_app_distr. f_equal.
  rewrite <- (firstn_skipn k (firstn k' rows)).
  rewrite firstn_firstn, Nat.min_l by assumption.
  f_equal. apply skipn_firstn_comm.
Qed.

Lemma window_monotone_witness :
  let u := turn (py"user") (py"hi there") (py"text") in
  let b := turn (py"bot") (py"hello") (py"text") in
  (5 <= 7)%Z /\ exists older, window [b; u; b] 7 = older ++ window [b; u; b] 5.
Proof.
  intros u b. split; [lia|].
  apply (window_monotone [b; u; b]). lia.
Defined.

(** X4: windowing is idempotent: the window of a window, under the same
    budget, is that window. *)
Theorem window_idempotent (rows : list Turn) (budget : Z) :
  window (rev (window rows budget)) budget = window rows budget.
Proof.
  destruct (window_cut rows budget) as (k & Hk & E & Hfit & _).
  rewrite E, rev_involutive.
  destruct Hfit as [->|Hfit]; [reflexivity|].
  now apply window_all.
Qed.

(** X5: the window is empty exactly when there is no turn or the newest
    turn alone costs more than the budget; so the save button reports an
    empty history exactly when the chat has no row or its newest turn has
    more than 1000000 tokens. *)
Theorem window_empty (rows : list Turn) (budget : Z) (db : Database)
    (chat_id : Z) :
  (window rows budget = []
   <-> rows = []
       \/ exists newest older, rows = newest :: older
                               /\ (cost newest > budget)%Z)
  /\ (save_button_handler db chat_id = HistoryEmpty
      <-> fetchall db chat_id = []
          \/ exists newest older,
               fetchall db chat_id = newest :: older
               /\ (cost newest > 1000000)%Z).
Proof.
  split; [apply window_empty_iff|].
  unfold save_button_handler, get_chat_history.
  rewrite <- window_empty_iff.
  destruct (window (fetchall db chat_id) 1000000); split;
    congruence.
Qed.

Lemma window_empty_witness :
  let u := turn (py"user") (py"hi there") (py"text") in
  window [u] 3 = []
  /\ exists newest older, [u] = newest :: older /\ (cost newest > 3)%Z.
Proof.
  intros u.
  assert (H : window [u] 3 = []) by reflexivity.
  split; [exact H|].
  destruct (proj1 (proj1 (window_empty [u] 3 [] 0)) H) as [H0|H0].
  - discriminate H0.
  - exact H0.
Defined.

(** ** The cost of a turn and the export file *)

Lemma split_ws_sep (c : char) (b : str) :
  isspace c = true ->
  forall a cur,
    split_ws_from cur (a ++ c :: b) = split_ws_from cur a ++ split_ws b.
Proof.
  intros Hc. induction a as [|x a IH]; intros cur; simpl.
  - rewrite Hc. now destruct cur.
  - destruct (isspace x).
    + destruct cur; simpl; now rewrite IH.
    + apply IH.
Qed.

Lemma split_ws_word (s : str) :
  no_space s = true ->
  forall cur, cur ++ s <> [] -> split_ws_from cur s = [cur ++ s].
Proof.
  induction s as [|c s IH]; simpl; intros H cur Hne.
  - rewrite app_nil_r in *. now destruct cur.
  - apply andb_true_iff in H as [Hc Hs]. apply negb_true_iff in Hc.
    rewrite Hc, IH; auto.
    + now rewrite <- app_assoc.
    + destruct cur; discriminate.
Qed.

Lemma cost_text (t : Turn) :
  role t ++ py": " ++ content t ++ py" [" ++ type t ++ py"]"
  = (role t ++ [58%N]) ++ 32%N :: content t
    ++ 32%N :: (91%N :: type t ++ [93%N]).
Proof.
  change (py": ") with [58%N; 32%N]. change (py" [") with [32%N; 91%N].
  change (py"]") with [93%N]. now rewrite <- app_assoc.
Qed.

Lemma cost_words (t : Turn) :
  no_space (role t) = true -> no_space (type t) = true ->
  cost t = (2 + Z.of_nat (length (split_ws (content t))))%Z.
Proof.
  intros Hr Ht. unfold cost. rewrite cost_text. unfold split_ws.
  rewrite split_ws_sep by reflexivity.
  rewrite split_ws_word.
  2:{ unfold no_space in *. rewrite forallb_app, Hr. reflexivity. }
  2:{ destruct (role t); discriminate. }
  unfold split_ws. rewrite split_ws_sep by reflexivity.
  unfold split_ws. rewrite (@split_ws_word (91%N :: type t ++ [93%N])).
  2:{ unfold no_space in *. simpl. rewrite forallb_app, Ht. reflexivity. }
  2:{ discriminate. }
  rewrite !length_app. simpl length. lia.
Qed.

(** X6: a turn whose role and type hold no white space, as all those the
    bot writes, costs two tokens more than its content has words; so an
    image or audio marker costs 3 and no turn costs less than 2. *)
Theorem turn_cost (t : Turn) :
  no_space (role t) = true -> no_space (type t) = true ->
  cost t = (2 + Z.of_nat (length (split_ws (content t))))%Z
  /\ (2 <= cost t)%Z.
Proof.
  intros Hr Ht. pose proof (cost_words t Hr Ht) as H.
  split; [exact H|]. lia.
Qed.

Lemma turn_cost_witness :
  let photo := turn (py"user") [1060; 1086; 1090; 1086]%N (py"image") in
  no_space (role photo) = true /\ no_space (type photo) = true
  /\ cost photo = 3%Z.
Proof.
  intros photo. split; [reflexivity|]. split; [reflexivity|].
  exact (proj1 (@turn_cost photo eq_refl eq_refl)).
Defined.

Lemma history_file_cons (entry : Turn) (history : list Turn) :
  history_file (entry :: history)
  = (role entry ++ py": " ++ content entry ++ py" [" ++ type entry ++ py"]")
    ++ newline :: history_file history.
Proof.
  unfold history_file. cbn [flat_map]. now rewrite <- !app_assoc.
Qed.

(** X7: the export file has as many white-space separated tokens as the
    exported turns cost together: the cost of the window is the word count
    of what the save button writes. *)
Theorem history_file_tokens (history : list Turn) :
  Z.of_nat (length (split_ws (history_file history))) = total_cost history.
Proof.
  induction history as [|entry history IH]; [reflexivity|].
  rewrite history_file_cons, total_cost_cons, <- IH.
  unfold split_ws at 1. rewrite split_ws_sep by reflexivity.
  rewrite length_app, Nat2Z.inj_add. reflexivity.
Qed.

(** ** Saving, reading and clearing *)

Lemma chronological_app (a b : Database) (chat_id : Z) :
  chronological (a ++ b) chat_id
  = chronological a chat_id ++ chronological b chat_id.
Proof. unfold chronological. now rewrite filter_app, map_app. Qed.

Lemma chronological_other (rows : Database) (chat_id other : Z) :
  Forall (fun r => row_chat r = chat_id) rows -> other <> chat_id ->
  chronological rows other = [].
Proof.
  intros H Hne. unfold chronological.
  induction H as [|r rows Hr _ IH]; [reflexivity|]. simpl.
  destruct (Z.eqb_spec (row_chat r) other); [congruence|exact IH].
Qed.

Lemma window_newest (newest : Turn) (older : list Turn) (budget : Z) :
  (cost newest <= budget)%Z ->
  exists earlier, window (newest :: older) budget = earlier ++ [newest].
Proof.
  intros H.
  destruct (window_cut (newest :: older) budget) as (k & _ & E & _ & Hstop).
  destruct k as [|k].
  - specialize (Hstop newest older eq_refl). simpl in Hstop. lia.
  - exists (rev (firstn k older)). now rewrite E.
Qed.


(** X8: a saved message is read back: it becomes the last turn of its
    chat, the histories of the other chats are untouched, and the window
    of its chat ends with it whenever its own cost fits the budget. *)
Theorem save_then_read (db : Database) (chat_id : Z)
    (role content msg_type : str) (budget : Z) :
  chronological (save_message db chat_id role content msg_type) chat_id
  = chronological db chat_id ++ [turn role content msg_type]
  /\ (forall other, other <> chat_id ->
        get_chat_history (save_message db chat_id role content msg_type)
          other budget
        = get_chat_history db other budget)
  /\ ((cost (turn role content msg_type) <= budget)%Z ->
      exists earlier,
        get_chat_history (save_message db chat_id role content msg_type)
          chat_id budget
        = earlier ++ [turn role content msg_type]).
Proof.
  assert (Hc : chronological (save_message db chat_id role content msg_type)
                 chat_id
               = chronological db chat_id ++ [turn role content msg_type]).
  { unfold save_message. rewrite chronological_app. f_equal.
    unfold chronological. simpl. now rewrite Z.eqb_refl. }
  split; [exact Hc|]. split.
  - intros other Hne. unfold get_chat_history, fetchall, save_message.
    rewrite chronological_app.
    rewrite (@chronological_other
               [{| row_chat := chat_id; row_role := role;
                   row_content := content; row_type := Some msg_type |}]
               chat_id other), app_nil_r; auto.
  - intros Hcost. unfold get_chat_history, fetchall.
    rewrite Hc, rev_app_distr. now apply window_newest.
Qed.

Lemma save_then_read_witness :
  let db := save_message [] 1 (py"user") (py"hi") (py"text") in
  (cost (turn (py"bot") (py"hello you") (py"text")) <= 4)%Z
  /\ exists earlier,
       get_chat_history (save_message db 1 (py"bot") (py"hello you")
                           (py"text")) 1 4
       = earlier ++ [turn (py"bot") (py"hello you") (py"text")].
Proof.
  intros db.
  assert (H : (cost (turn (py"bot") (py"hello you") (py"text")) <= 4)%Z)
    by (vm_compute; discriminate).
  split; [exact H|].
  exact (proj2 (proj2 (@save_then_read db 1 (py"bot") (py"hello you")
                         (py"text") 4)) H).
Defined.

Lemma clear_own (db : Database) (chat_id : Z) :
  chronological (clear_chat_history db chat_id) chat_id = [].
Proof.
  unfold chronological, clear_chat_history.
  induction db as [|r db IH]; [reflexivity|]. simpl.
  destruct (Z.eqb_spec (row_chat r) chat_id) as [E|E]; simpl; [exact IH|].
  destruct (Z.eqb_spec (row_chat r) chat_id); [contradiction|exact IH].
Qed.

(** X9: clearing a chat empties its history under every budget, so that
    the save button then reports an empty history; it leaves the other
    chats as they are, and clearing twice is clearing once. *)
Theorem clear_chat (db : Database) (chat_id : Z) (budget : Z) :
  get_chat_history (clear_chat_history db chat_id) chat_id budget = []
  /\ save_button_handler (clear_chat_history db chat_id) chat_id
     = HistoryEmpty
  /\ (forall other, other <> chat_id ->
        chronological (clear_chat_history db chat_id) other
        = chronological db other)
  /\ clear_chat_history (clear_chat_history db chat_id) chat_id
     = clear_chat_history db chat_id.
Proof.
  assert (He : forall b,
             get_chat_history (clear_chat_history db chat_id) chat_id b = []).
  { intros b. unfold get_chat_history, fetchall. now rewrite clear_own. }
  split; [apply He|]. split.
  - unfold save_button_handler. now rewrite He.
  - split.
    + clear He. intros other Hne.
      unfold chronological, clear_chat_history. f_equal.
      induction db as [|r db IH]; [reflexivity|]. simpl.
      destruct (Z.eqb_spec (row_chat r) chat_id) as [E|E]; simpl.
      * destruct (Z.eqb_spec (row_chat r) other); [congruence|exact IH].
      * destruct (Z.eqb_spec (row_chat r) other); now rewrite IH.
    + clear He. unfold clear_chat_history.
      induction db as [|r db IH]; [reflexivity|]. simpl.
      destruct (Z.eqb_spec (row_chat r) chat_id) as [E|E]; simpl;
        [exact IH|].
      destruct (Z.eqb_spec (row_chat r) chat_id); [contradiction|].
      simpl. now rewrite IH.
Qed.

Lemma clear_chat_witness :
  let db := save_message (save_message [] 1 (py"user") (py"a") (py"text"))
              2 (py"user") (py"b") (py"text") in
  2%Z <> 1%Z
  /\ chronological (clear_chat_history db 1) 2 = chronological db 2.
Proof.
  intros db.
  assert (H : 2%Z <> 1%Z) by discriminate.
  split; [exact H|].
  exact (proj1 (proj2 (proj2 (clear_chat db 1 0))) 2%Z H).
Defined.

(** ** More on the scanning loop *)

Section ScanCases.

Variable lone : char -> str.

(** Reasoning on a scan by the four things an iteration can do. *)
Lemma scan_cases (P : str -> str -> Prop) :
  P [] [] ->
  (forall c rest, is_opener c rest = false ->
     P rest (scan lone rest) -> P (c :: rest) (esc_char c ++ scan lone rest)) ->
  (forall rest k, index_of backtick rest = Some k ->
     P (skipn (S k) rest) (scan lone (skipn (S k) rest)) ->
     P (backtick :: rest)
       (backtick :: firstn (S k) rest ++ scan lone (skipn (S k) rest))) ->
  (forall rest, index_of backtick rest = None ->
     P rest (scan lone rest) ->
     P (backtick :: rest) (lone backtick ++ scan lone rest)) ->
  forall s, P s (scan lone s).
Proof.
  intros Hnil Hplain Hspan Hlone.
  assert (H : forall n s, length s <= n -> P s (scan lone s)).
  { induction n as [|n IH]; intros s Hs.
    - destruct s; [exact Hnil|simpl in Hs; lia].
    - destruct s as [|c rest]; [exact Hnil|]. simpl in Hs.
      rewrite scan_head. destruct (is_opener c rest) eqn:Eo.
      + assert (c = backtick) as ->.
        { unfold is_opener in Eo. apply andb_true_iff in Eo as [Ec _].
          now apply N.eqb_eq in Ec. }
        destruct (index_of backtick rest) as [k|] eqn:Ek.
        * apply Hspan; [exact Ek|]. apply IH.
          rewrite length_skipn. lia.
        * apply Hlone; [exact Ek|]. apply IH. lia.
      + apply Hplain; [exact Eo|]. apply IH. lia. }
  intros s. now apply (H (length s)).
Qed.

Lemma esc_char_not_backslash (c : char) :
  filter not_backslash (esc_char c) = filter not_backslash [c].
Proof.
  unfold esc_char.
  destruct (N.eqb_spec c underscore) as [->|_]; [reflexivity|].
  destruct (N.eqb_spec c lbracket) as [->|_]; reflexivity.
Qed.

Lemma esc_char_length (c : char) :
  1 <= length (esc_char c) <= 2.
Proof.
  unfold esc_char.
  destruct (N.eqb c underscore); [simpl; lia|].
  destruct (N.eqb c lbracket); simpl; lia.
Qed.

(** A scan changes a text by putting backslashes in, and in no other
    way. *)
Lemma scan_not_backslash (s : str) :
  filter not_backslash (lone backtick) = [backtick] ->
  filter not_backslash (scan lone s) = filter not_backslash s.
Proof.
  intros Hl.
  apply (scan_cases (fun s out =>
           filter not_backslash out = filter not_backslash s)).
  - reflexivity.
  - intros c rest _ IH.
    rewrite filter_app, esc_char_not_backslash, IH.
    now rewrite <- filter_app.
  - intros rest k _ IH.
    rewrite <- (firstn_skipn (S k) rest) at 3.
    change (backtick :: firstn (S k) rest ++ scan lone (skipn (S k) rest))
      with ([backtick] ++ firstn (S k) rest ++ scan lone (skipn (S k) rest)).
    change (backtick :: firstn (S k) rest ++ skipn (S k) rest)
      with ([backtick] ++ firstn (S k) rest ++ skipn (S k) rest).
    now rewrite !filter_app, IH.
  - intros rest _ IH. rewrite filter_app, Hl, IH. reflexivity.
Qed.

Lemma scan_length (s : str) :
  1 <= length (lone backtick) <= 2 ->
  length s <= length (scan lone s) <= 2 * length s.
Proof.
  intros Hl.
  apply (scan_cases (fun s out =>
           length s <= length out <= 2 * length s)).
  - simpl. lia.
  - intros c rest _ IH. rewrite length_app.
    pose proof (esc_char_length c). simpl length. lia.
  - intros rest k Hk IH. apply index_of_lt in Hk.
    cbn [length]. rewrite length_app, length_firstn.
    rewrite length_skipn in IH. lia.
  - intros rest _ IH. rewrite length_app. simpl length. lia.
Qed.

End ScanCases.

(** X10: rendering prose only ever puts backslashes in: with the
    backslashes taken out, the escaped line, the escaped text and the
    display string of a reply without fences are the raw text with its
    backslashes taken out; nothing is dropped, replaced or moved. *)
Theorem only_backslashes_added (s : str) :
  filter not_backslash (escape_line s) = filter not_backslash s
  /\ filter not_backslash (escape_text s) = filter not_backslash s
  /\ (branch_of s = BranchB ->
      filter not_backslash (display (render s)) = filter not_backslash s).
Proof.
  assert (HB : filter not_backslash (escape_text s) = filter not_backslash s)
    by (now apply scan_not_backslash).
  split; [now apply scan_not_backslash|]. split; [exact HB|].
  intros Hb. unfold render. now rewrite Hb.
Qed.

Lemma only_backslashes_added_witness :
  branch_of (py"a_\[`b") = BranchB
  /\ filter not_backslash (display (render (py"a_\[`b")))
     = filter not_backslash (py"a_\[`b").
Proof.
  assert (H : branch_of (py"a_\[`b") = BranchB) by reflexivity.
  split; [exact H|].
  exact (proj2 (proj2 (only_backslashes_added (py"a_\[`b"))) H).
Defined.

(** X11: escaping never shortens a text and at most doubles it, in the
    line scan and in the whole-text scan alike. *)
Theorem escape_length (s : str) :
  length s <= length (escape_line s) <= 2 * length s
  /\ length s <= length (escape_text s) <= 2 * length s.
Proof.
  split; apply scan_length; simpl; lia.
Qed.

(** ** Lines and fenced blocks *)

Lemma join_cons (sep : char) (p q : str) (ps : list str) :
  join sep (p :: q :: ps) = p ++ sep :: join sep (q :: ps).
Proof. reflexivity. Qed.

Lemma join_split (sep : char) (s : str) : join sep (split_on sep s) = s.
Proof.
  induction s as [|c s IH]; [reflexivity|]. cbn [split_on].
  destruct (split_on_head sep s) as (l0 & ls & r & E & _).
  rewrite E in *. destruct (N.eqb_spec c sep) as [->|_].
  - rewrite join_cons, IH. reflexivity.
  - destruct ls as [|l1 ls].
    + cbn [join] in *. now rewrite IH.
    + rewrite join_cons in *. rewrite <- IH. reflexivity.
Qed.

Lemma split_on_clean (sep : char) (s : str) :
  Forall (fun l => ~ In sep l) (split_on sep s).
Proof.
  induction s as [|c s IH]; simpl.
  - constructor; [tauto|constructor].
  - destruct (N.eqb_spec c sep) as [->|Hne].
    + constructor; [tauto|exact IH].
    + destruct (split_on sep s) as [|l ls].
      * constructor; [|constructor]. intros [H|[]]. congruence.
      * inversion IH as [|? ? Hl Hls]; subst.
        constructor; [|exact Hls]. intros [H|H]; [congruence|tauto].
Qed.

Lemma split_on_app_sep (sep : char) (p r : str) :
  ~ In sep p -> split_on sep (p ++ sep :: r) = p :: split_on sep r.
Proof.
  induction p as [|c p IH]; simpl; intros H.
  - now rewrite N.eqb_refl.
  - destruct (N.eqb_spec c sep) as [->|_]; [tauto|].
    rewrite IH by tauto. reflexivity.
Qed.

Lemma split_on_single (sep : char) (p : str) :
  ~ In sep p -> split_on sep p = [p].
Proof.
  induction p as [|c p IH]; simpl; intros H; [reflexivity|].
  destruct (N.eqb_spec c sep) as [->|_]; [tauto|].
  rewrite IH by tauto. reflexivity.
Qed.

Lemma split_join (sep : char) (lines : list str) :
  lines <> [] -> Forall (fun l => ~ In sep l) lines ->
  split_on sep (join sep lines) = lines.
Proof.
  intros Hne H. revert Hne.
  induction H as [|p ps Hp Hps IH]; intros Hne; [now destruct Hne|].
  destruct ps as [|q ps].
  - now apply split_on_single.
  - change (join sep (p :: q :: ps)) with (p ++ sep :: join sep (q :: ps)).
    rewrite split_on_app_sep by assumption.
    rewrite IH; [reflexivity|discriminate].
Qed.

Lemma escape_line_clean (line : str) :
  ~ In newline line -> ~ In newline (escape_line line).
Proof.
  intros H Hin. apply H.
  assert (Hf : In newline (filter not_backslash (escape_line line)))
    by (apply filter_In; split; [exact Hin|reflexivity]).
  unfold escape_line in Hf. rewrite scan_not_backslash in Hf by reflexivity.
  now apply filter_In in Hf.
Qed.

Lemma format_line_clean (in_code_block : bool) (line : str) :
  ~ In newline line -> ~ In newline (snd (format_line in_code_block line)).
Proof.
  intros H. unfold format_line.
  destruct (startswith line fence).
  - destruct (str_eqb line fence && negb (negb in_code_block)).
    + cbn. intros Hin. repeat destruct Hin as [Hin|Hin]; discriminate || auto.
    + destruct (str_eqb line fence && negb in_code_block); [|exact H].
      cbn. intros Hin. repeat destruct Hin as [Hin|Hin]; discriminate || auto.
  - destruct (negb in_code_block); [|exact H].
    now apply escape_line_clean.
Qed.

Lemma format_lines_clean (lines : list str) :
  Forall (fun l => ~ In newline l) lines ->
  forall in_code_block,
    Forall (fun l => ~ In newline l) (format_lines in_code_block lines).
Proof.
  induction 1 as [|line lines Hl _ IH]; intros b; cbn [format_lines].
  - constructor.
  - pose proof (@format_line_clean b line Hl) as Hc.
    destruct (format_line b line) as [b' line']. constructor; [exact Hc|].
    apply IH.
Qed.

Lemma format_lines_length (lines : list str) :
  forall in_code_block,
    length (format_lines in_code_block lines) = length lines.
Proof.
  induction lines as [|line lines IH]; intros b; cbn [format_lines];
    [reflexivity|].
  destruct (format_line b line). simpl. now rewrite IH.
Qed.

(** X12: splitting a reply at the newlines and joining the lines again
    gives the reply back; and the line-by-line algorithm keeps the lines
    apart: the lines of the display string are the formatted lines of the
    raw reply, one for one. *)
Theorem render_keeps_lines (raw : str) :
  join newline (split_on newline raw) = raw
  /\ (branch_of raw = BranchA ->
      split_on newline (display (render raw))
      = format_lines false (split_on newline raw)
      /\ length (split_on newline (display (render raw)))
         = length (split_on newline raw)).
Proof.
  split; [apply join_split|]. intros Hb.
  assert (E : split_on newline (display (render raw))
              = format_lines false (split_on newline raw)).
  { unfold render. rewrite Hb. cbn [display]. apply split_join.
    - intros H. apply (f_equal (@length str)) in H.
      rewrite format_lines_length in H.
      destruct (split_on_head newline raw) as (l0 & ls & r & E & _).
      rewrite E in H. discriminate.
    - apply format_lines_clean, split_on_clean. }
  split; [exact E|]. now rewrite E, format_lines_length.
Qed.

Lemma render_keeps_lines_witness :
  let raw := join newline [py"a_b"; py"```"; py"x_y"; py"```"] in
  branch_of raw = BranchA
  /\ split_on newline (display (render raw))
     = [py"a\_b"; py"```python"; py"x_y"; py"```"].
Proof.
  intros raw.
  assert (H : branch_of raw = BranchA) by reflexivity.
  split; [exact H|].
  exact (proj1 (proj2 (render_keeps_lines raw) H)).
Defined.

Lemma format_lines_inside (code : list str) :
  Forall (fun l => startswith l fence = false) code ->
  forall rest,
    format_lines true (code ++ rest) = code ++ format_lines true rest.
Proof.
  induction 1 as [|line code Hl _ IH]; intros rest; [reflexivity|].
  cbn [app format_lines]. unfold format_line. rewrite Hl. cbn [negb].
  now rewrite IH.
Qed.

(** X13: a fenced block is shown as it was written: between a line that
    starts with the marker and the next such line every line is copied,
    the closing line too, only a bare opening marker gets the tag
    [python]; after the block the lines are prose again.  A block that is
    never closed is copied to the end. *)
Theorem fenced_block_verbatim (opener closer : str) (code rest : list str) :
  startswith opener fence = true ->
  Forall (fun l => startswith l fence = false) code ->
  startswith closer fence = true ->
  format_lines false (opener :: code ++ closer :: rest)
  = (if str_eqb opener fence then py"```python" else opener)
    :: code ++ closer :: format_lines false rest
  /\ format_lines false (opener :: code)
     = (if str_eqb opener fence then py"```python" else opener) :: code.
Proof.
  intros Ho Hcode Hc.
  assert (Hopen : format_line false opener
                  = (true, if str_eqb opener fence then py"```python"
                           else opener)).
  { unfold format_line. rewrite Ho. cbn [negb andb].
    rewrite andb_false_r, andb_true_r.
    now destruct (str_eqb opener fence). }
  assert (Hclose : format_line true closer = (false, closer)).
  { unfold format_line. rewrite Hc. cbn [negb andb].
    rewrite andb_true_r, andb_false_r.
    destruct (str_eqb closer fence) eqn:E; [|reflexivity].
    apply str_eqb_eq in E. now subst closer. }
  split.
  - cbn [format_lines]. rewrite Hopen.
    rewrite format_lines_inside by assumption.
    cbn [format_lines]. now rewrite Hclose.
  - cbn [format_lines]. rewrite Hopen.
    rewrite <- (app_nil_r code) at 1.
    rewrite format_lines_inside by assumption.
    cbn [format_lines]. now rewrite app_nil_r.
Qed.

Lemma fenced_block_verbatim_witness :
  startswith (py"```") fence = true
  /\ Forall (fun l => startswith l fence = false) [py"x_y = [1]"; py"`z"]
  /\ startswith (py"```") fence = true
  /\ format_lines false
       (py"```" :: [py"x_y = [1]"; py"`z"] ++ py"```" :: [py"a_b"])
     = py"```python" :: [py"x_y = [1]"; py"`z"]
       ++ py"```" :: format_lines false [py"a_b"].
Proof.
  assert (H : Forall (fun l => startswith l fence = false)
                [py"x_y = [1]"; py"`z"])
    by (repeat constructor).
  split; [reflexivity|]. split; [exact H|]. split; [reflexivity|].
  exact (proj1 (@fenced_block_verbatim (py"```") (py"```")
                  [py"x_y = [1]"; py"`z"] [py"a_b"] eq_refl H eq_refl)).
Defined.

(** ** More on handling a message *)



Section HandlerFacts.

Variable generate_content : list Content -> option str.
Variable edit_message_text : str -> bool.

(** Lines 184-277: what the [try] adds to the rows already written. *)
Lemma reply_stage (db1 : Database) (chat_id : Z) (content : list Content) :
  let out :=
    match generate_content content with
    | Some full_response =>
        let rendered := render full_response in
        if edit_message_text (display rendered) then
          (save_message db1 chat_id (py"bot") (stored rendered) (py"text"),
           Some (display rendered))
        else (db1, None)
    | None => (db1, None)
    end in
  exists reply_rows,
    fst out = db1 ++ reply_rows
    /\ (snd out = None -> reply_rows = [])
    /\ (forall shown, snd out = Some shown ->
          exists raw, reply_rows = [bot_row chat_id raw]
                      /\ shown = display (render raw)).
Proof.
  cbv zeta. destruct (generate_content content) as [raw|].
  - destruct (edit_message_text (display (render raw))).
    + exists [bot_row chat_id raw]. cbn [fst snd]. repeat split.
      * unfold save_message. now rewrite render_keeps_raw.
      * discriminate.
      * intros shown [= <-]. now exists raw.
    + exists []. cbn [fst snd]. repeat split.
      * now rewrite app_nil_r.
      * discriminate.
  - exists []. cbn [fst snd]. repeat split.
    + now rewrite app_nil_r.
    + discriminate.
Qed.

(** The rows one call writes: at most one for the user, then at most one
    for the reply. *)
Lemma process_content_rows (db : Database) (message : Message)
    (content_type : str) :
  exists user_rows reply_rows,
    fst (process_content generate_content edit_message_text db message
           content_type) = db ++ user_rows ++ reply_rows
    /\ length user_rows <= 1
    /\ Forall (fun r => row_role r = py"user"
                        /\ row_chat r = msg_chat message) user_rows
    /\ (content_type = py"text" -> user_rows = [user_text_row message])
    /\ (snd (process_content generate_content edit_message_text db message
               content_type) = None -> reply_rows = [])
    /\ (forall shown,
          snd (process_content generate_content edit_message_text db message
                 content_type) = Some shown ->
          exists raw, reply_rows = [bot_row (msg_chat message) raw]
                      /\ shown = display (render raw)).
Proof.
  unfold process_content.
  destruct (str_eqb content_type (py"text")) eqn:Et;
    [|destruct (str_eqb content_type (py"photo")) eqn:Ep;
      [|destruct (str_eqb content_type (py"audio")) eqn:Ea]];
    cbv beta iota zeta.
  - match goal with
    | |- context [generate_content ?c] =>
        destruct (reply_stage
                    (save_message db (msg_chat message) (py"user")
                       (msg_text message) (py"text"))
                    (msg_chat message) c) as (reply_rows & E & Hn & Hs)
    end; cbv beta iota zeta in E, Hn, Hs.
    exists [user_text_row message], reply_rows.
    split; [rewrite E; unfold save_message; now rewrite <- app_assoc|].
    split; [simpl; lia|]. split; [repeat constructor|].
    split; [reflexivity|]. split; assumption.
  - match goal with
    | |- context [generate_content ?c] =>
        destruct (reply_stage
                    (save_message db (msg_chat message) (py"user")
                       [1060; 1086; 1090; 1086]%N (py"image"))
                    (msg_chat message) c) as (reply_rows & E & Hn & Hs)
    end; cbv beta iota zeta in E, Hn, Hs.
    eexists [_], reply_rows.
    split; [rewrite E; unfold save_message; now rewrite <- app_assoc|].
    split; [simpl; lia|]. split; [repeat constructor|].
    split; [|split; assumption].
    intros ->. rewrite str_eqb_refl in Et. discriminate.
  - match goal with
    | |- context [generate_content ?c] =>
        destruct (reply_stage
                    (save_message db (msg_chat message) (py"user")
                       [1040; 1091; 1076; 1080; 1086]%N (py"audio"))
                    (msg_chat message) c) as (reply_rows & E & Hn & Hs)
    end; cbv beta iota zeta in E, Hn, Hs.
    eexists [_], reply_rows.
    split; [rewrite E; unfold save_message; now rewrite <- app_assoc|].
    split; [simpl; lia|]. split; [repeat constructor|].
    split; [|split; assumption].
    intros ->. rewrite str_eqb_refl in Et. discriminate.
  - match goal with
    | |- context [generate_content ?c] =>
        destruct (reply_stage db (msg_chat message) c)
          as (reply_rows & E & Hn & Hs)
    end; cbv beta iota zeta in E, Hn, Hs.
    exists [], reply_rows.
    split; [exact E|].
    split; [simpl; lia|]. split; [constructor|].
    split; [|split; assumption].
    intros ->. rewrite str_eqb_refl in Et. discriminate.
Qed.

End HandlerFacts.

(** X15: handling a message only appends: the rows already stored stay as
    they are and in place, at most two rows are added, all of them to the
    chat of the message; so the history of every other chat reads as
    before. *)
Theorem process_content_appends
    (generate_content : list Content -> option str)
    (edit_message_text : str -> bool)
    (db : Database) (message : Message) (content_type : str) :
  (exists added,
     fst (process_content generate_content edit_message_text db message
            content_type) = db ++ added
     /\ length added <= 2
     /\ Forall (fun r => row_chat r = msg_chat message) added)
  /\ (forall other budget, other <> msg_chat message ->
        get_chat_history
          (fst (process_content generate_content edit_message_text db
                  message content_type)) other budget
        = get_chat_history db other budget).
Proof.
  destruct (process_content_rows generate_content edit_message_text db
              message content_type)
    as (user_rows & reply_rows & E & Hlen & Huser & _ & Hnone & Hsome).
  assert (Hreply : length reply_rows <= 1
                   /\ Forall (fun r => row_chat r = msg_chat message)
                        reply_rows).
  { destruct (snd (process_content generate_content edit_message_text db
                     message content_type)) as [shown|].
    - destruct (Hsome shown eq_refl) as (raw & -> & _).
      split; [simpl; lia|]. repeat constructor.
    - rewrite (Hnone eq_refl). split; [simpl; lia|constructor]. }
  destruct Hreply as [Hrl Hrc].
  assert (Hadded : Forall (fun r => row_chat r = msg_chat message)
                     (user_rows ++ reply_rows)).
  { apply Forall_app. split; [|exact Hrc].
    eapply Forall_impl; [|exact Huser]. now intros r [_ H]. }
  split.
  - exists (user_rows ++ reply_rows). split; [exact E|].
    split; [rewrite length_app; lia|exact Hadded].
  - intros other budget Hne. rewrite E.
    unfold get_chat_history, fetchall. rewrite chronological_app.
    rewrite (@chronological_other (user_rows ++ reply_rows)
               (msg_chat message) other), app_nil_r; auto.
Qed.

Lemma process_content_appends_witness :
  let message := {| msg_chat := 7; msg_text := py"hi"; msg_file := [] |} in
  let db := save_message [] 3 (py"user") (py"old") (py"text") in
  3%Z <> msg_chat message
  /\ get_chat_history
       (fst (process_content (fun _ => Some (py"ok")) (fun _ => true) db
               message (py"text"))) 3 10
     = get_chat_history db 3 10.
Proof.
  intros message db.
  assert (H : 3%Z <> msg_chat message) by discriminate.
  split; [exact H|].
  exact (proj2 (process_content_appends (fun _ => Some (py"ok"))
                  (fun _ => true) db message (py"text")) 3%Z 10%Z H).
Defined.

(** X16: when the model call raises or the reply cannot be delivered, no
    reply is stored but the turn of the user stays: a text message is in
    the history whether it was answered or not. *)
Theorem failed_reply_keeps_user_turn
    (generate_content : list Content -> option str)
    (edit_message_text : str -> bool)
    (db : Database) (message : Message) (content_type : str) :
  snd (process_content generate_content edit_message_text db message
         content_type) = None ->
  exists user_rows,
    fst (process_content generate_content edit_message_text db message
           content_type) = db ++ user_rows
    /\ length user_rows <= 1
    /\ Forall (fun r => row_role r = py"user") user_rows
    /\ (content_type = py"text" -> user_rows = [user_text_row message]).
Proof.
  intros Hfail.
  destruct (process_content_rows generate_content edit_message_text db
              message content_type)
    as (user_rows & reply_rows & E & Hlen & Huser & Htext & Hnone & _).
  exists user_rows. rewrite E, (Hnone Hfail), app_nil_r.
  repeat split; auto.
  eapply Forall_impl; [|exact Huser]. now intros r [H _].
Qed.

Lemma failed_reply_keeps_user_turn_witness :
  let message := {| msg_chat := 7; msg_text := py"hi"; msg_file := [] |} in
  snd (process_content (fun _ => None) (fun _ => true) [] message
         (py"text")) = None
  /\ exists user_rows,
       fst (process_content (fun _ => None) (fun _ => true) [] message
              (py"text")) = [] ++ user_rows
       /\ length user_rows <= 1
       /\ Forall (fun r => row_role r = py"user") user_rows
       /\ (py"text" = py"text" -> user_rows = [user_text_row message]).
Proof.
  intros message. split; [reflexivity|].
  exact (@failed_reply_keeps_user_turn (fun _ => None) (fun _ => true) []
           message (py"text") eq_refl).
Defined.


